(** * gruppen.cpp: a GUID -> Flidx database and composable queries on it

    The program keeps a database from GUIDs to face indices (Flidx) and a
    second database from group labels to queries.  A query is a
    [std::function<FlidxSet()>] built by one of the four overloads of
    [QueryContext::createQuery]; each overload wraps a lambda that captures
    [this] (the context, which holds the two databases by reference) and its
    own parameters by value.

    The closures are defunctionalised: one constructor of [Query] per lambda,
    carrying what the lambda captures by value.  What a lambda reaches through
    [this] is not part of the closure: it is read from the store when the
    closure runs. *)

From stdpp Require Import gmap strings list fin_maps.

Local Open Scope Z_scope.
Set Warnings "-register-all".

(** ** Types (lines 27-39) *)

Abbreviation Flidx := Z (only parsing).
Abbreviation GUID := Z (only parsing).
Abbreviation GroupLabel := string (only parsing).
Abbreviation FlidxSet := (gset Z) (only parsing).

(** [int] is taken as the 32-bit two's complement type and [size_t] as the
    64-bit unsigned type (LP64). *)
Definition INT_MIN : Z := -2147483648.
Definition INT_MAX : Z := 2147483647.
Definition SIZE_MODULUS : Z := 2 ^ 64.

(** [std::vector<int>::max_size()]: PTRDIFF_MAX / sizeof(int). *)
Definition vector_max_size : Z := 2 ^ 61 - 1.

Definition in_int (z : Z) : bool := (INT_MIN <=? z) && (z <=? INT_MAX).

(** The lambdas of [createQuery], lines 63, 69, 75 and 81. *)
Inductive Query : Type :=
| guid_query (guid : GUID)
| guidrange_query (first last : GUID)
| label_query (label : GroupLabel)
| list_query (queries : list Query).

(** Addresses of the [std::vector<Query>] objects owned by the caller. *)
Abbreviation addr := nat (only parsing).

(** The objects the program works on: the two databases that a
    [QueryContext] refers to (it never copies them), and the vectors of
    queries that callers hand to [createQuery] by reference. *)
Record Store : Type := mkStore {
  guid_db : gmap Z Z;
  group_db : gmap string Query;
  vectors : gmap nat (list Query)
}.

(** ** Outcomes *)

(** The error kinds of the specification.  The source has no [throw] and no
    error return of its own. *)
Inductive Error : Type := NotFound | InvalidRange | CycleDetected.

(** Undefined behaviour that the source can run into. *)
Inductive UB : Type :=
| DerefEnd            (* [->second] on the iterator [end()] returned by [find] *)
| SignedOverflow      (* [int] arithmetic leaving [INT_MIN .. INT_MAX] *)
| DanglingReference.  (* a reference to a vector that no longer exists *)

(** Exceptions of the standard library.  The vector constructor throws
    [std::length_error] when asked for more than [max_size()] elements. *)
Inductive Exception : Type := length_error.

Inductive Outcome (A : Type) : Type :=
| Returned (a : A)
| Failed (e : Error)
| Undefined (u : UB)
| Thrown (x : Exception)
| OutOfFuel.

Arguments Returned {A} a.
Arguments Failed {A} e.
Arguments Undefined {A} u.
Arguments Thrown {A} x.
Arguments OutOfFuel {A}.

(** ** Computations on the store *)

(** A computation receives the store and gives an outcome and the store it
    leaves.  When the outcome is not [Returned] the computation stopped at
    that point, and the store is the one reached there. *)
Definition M (A : Type) : Type := Store -> Outcome A * Store.

Definition ret {A : Type} (a : A) : M A := fun st => (Returned a, st).

Definition bind {A B : Type} (m : M A) (f : A -> M B) : M B := fun st =>
  match m st with
  | (Returned a, st') => f a st'
  | (Failed e, st') => (Failed e, st')
  | (Undefined u, st') => (Undefined u, st')
  | (Thrown x, st') => (Thrown x, st')
  | (OutOfFuel, st') => (OutOfFuel, st')
  end.

Notation "x <- m ;; f" := (bind m (fun x => f))
  (at level 100, m at next level, right associativity).

Definition undefined {A : Type} (u : UB) : M A := fun st => (Undefined u, st).
Definition throw {A : Type} (x : Exception) : M A := fun st => (Thrown x, st).
Definition out_of_fuel {A : Type} : M A := fun st => (OutOfFuel, st).

(** [this->guid_db.find(guid)]: the iterator is [Some] of the mapped value,
    or [None] for [end()]. *)
Definition guid_db_find (guid : GUID) : M (option Flidx) :=
  fun st => (Returned (guid_db st !! guid), st).

(** [this->group_db.find(label)]. *)
Definition group_db_find (label : GroupLabel) : M (option Query) :=
  fun st => (Returned (group_db st !! label), st).

(** [it->second]. *)
Definition second {A : Type} (it : option A) : M A :=
  match it with
  | Some v => ret v
  | None => undefined DerefEnd
  end.

(** Reading a [std::vector<Query> const&]. *)
Definition vector_deref (queries : addr) : M (list Query) := fun st =>
  match vectors st !! queries with
  | Some v => (Returned v, st)
  | None => (Undefined DanglingReference, st)
  end.

(** [int] arithmetic: a result outside the type is undefined behaviour. *)
Definition int_result (z : Z) : M Z :=
  if in_int z then ret z else undefined SignedOverflow.

Definition int_sub (a b : Z) : M Z := int_result (a - b).
Definition int_add (a b : Z) : M Z := int_result (a + b).

(** Conversion of an [int] to [size_t]. *)
Definition to_size_t (n : Z) : Z := n mod SIZE_MODULUS.

(** [std::vector<int> vals(n)]: [n] value-initialised elements.  A length
    within [max_size()] is taken to be allocated; a greater one throws. *)
Definition vector_int (n : Z) : M (list Z) :=
  if n <=? vector_max_size then ret (replicate (Z.to_nat n) 0)
  else throw length_error.

(** [std::iota(vals.begin(), vals.end(), value)]: each element is assigned
    [value], then [++value]; the increment is also done after the last
    element. *)
Fixpoint iota (vals : list Z) (value : Z) : M (list Z) :=
  match vals with
  | [] => ret []
  | _ :: rest =>
      value' <- int_add value 1 ;;
      rest' <- iota rest value' ;;
      ret (value :: rest')
  end.

(** [res.insert(b, e)] on a [std::set]. *)
Definition insert_range (res : gset Z) (vals : list Z) : gset Z :=
  res ∪ list_to_set vals.

(** ** [makeFlidxSet] (lines 42-50) *)

Definition makeFlidxSet (single : Flidx) : M FlidxSet :=
  ret ({[ single ]} ∪ ∅).

Definition makeFlidxSet_range (first last : Flidx) : M FlidxSet :=
  d <- int_sub last first ;;
  n <- int_add d 1 ;;
  vals <- vector_int (to_size_t n) ;;
  vals <- iota vals first ;;
  ret (insert_range ∅ vals).

(** ** Running a query: the bodies of the four lambdas *)

(** The loop of [list_query] (lines 84-88). *)
Fixpoint for_queries (call : Query -> M FlidxSet) (queries : list Query)
    (combi_res : gset Z) : M FlidxSet :=
  match queries with
  | [] => ret combi_res
  | query :: rest =>
      query_res <- call query ;;
      for_queries call rest (combi_res ∪ query_res)
  end.

(** [query()].  Every call of a [std::function] takes one unit of fuel, so
    the fuel bounds the depth of the call stack.  In [guidrange_query] the
    two arguments of [makeFlidxSet] are evaluated in an order the language
    leaves open; both orders give the same outcome, because each lookup
    either succeeds or dereferences [end()]. *)
Fixpoint evaluate (fuel : nat) (q : Query) : M FlidxSet :=
  match fuel with
  | O => out_of_fuel
  | S fuel' =>
      match q with
      | guid_query guid =>
          it <- guid_db_find guid ;;
          single <- second it ;;
          makeFlidxSet single
      | guidrange_query first last =>
          it1 <- guid_db_find first ;;
          v1 <- second it1 ;;
          it2 <- guid_db_find last ;;
          v2 <- second it2 ;;
          makeFlidxSet_range v1 v2
      | label_query label =>
          it <- group_db_find label ;;
          query <- second it ;;
          evaluate fuel' query
      | list_query queries =>
          for_queries (evaluate fuel') queries ∅
      end
  end.

(** ** [QueryContext::createQuery] (lines 61-92) *)

Definition createQuery_guid (guid : GUID) : M Query :=
  ret (guid_query guid).

Definition createQuery_range (first last : GUID) : M Query :=
  ret (guidrange_query first last).

Definition createQuery_label (label : GroupLabel) : M Query :=
  ret (label_query label).

(** The parameter is a reference; the capture [[this, queries]] copies the
    vector it refers to into the closure. *)
Definition createQuery_list (queries : addr) : M Query :=
  v <- vector_deref queries ;;
  ret (list_query v).

(** ** What the caller does to the store *)

(** [group_db[label] = query] (line 102). *)
Definition register (label : GroupLabel) (query : Query) : M unit := fun st =>
  (Returned tt,
   mkStore (guid_db st) (<[label := query]> (group_db st)) (vectors st)).

(** Giving a caller's vector a new content, and ending its lifetime. *)
Definition vector_assign (a : addr) (v : list Query) : M unit := fun st =>
  (Returned tt, mkStore (guid_db st) (group_db st) (<[a := v]> (vectors st))).

Definition vector_destroy (a : addr) : M unit := fun st =>
  (Returned tt, mkStore (guid_db st) (group_db st) (delete a (vectors st))).

(** The outcome of [q()] with a given fuel. *)
Definition run (fuel : nat) (q : Query) (st : Store) : Outcome FlidxSet :=
  fst (evaluate fuel q st).

(** [q()] completes with outcome [o]. *)
Definition evaluates_to (st : Store) (q : Query) (o : Outcome FlidxSet) : Prop :=
  exists fuel, run fuel q st = o /\ o <> OutOfFuel.

(** [q()] never completes: the recursion is unbounded. *)
Definition diverges (st : Store) (q : Query) : Prop :=
  forall fuel, run fuel q st = OutOfFuel.

(** ** Predicates on computations *)

(** A computation is quiet when it leaves the store as it found it, whatever
    its outcome, and its outcome is never one of the specification's
    errors. *)
Definition quiet {A : Type} (m : M A) : Prop :=
  forall st, snd (m st) = st /\ forall e, fst (m st) <> Failed e.

(** A computation that does not look at the store. *)
Definition store_free {A : Type} (m : M A) : Prop :=
  exists o, forall st, m st = (o, st).

(** A computation that makes no call of a query, so needs no stack. *)
Definition call_free {A : Type} (m : M A) : Prop :=
  forall st, fst (m st) <> OutOfFuel.

(** ** The scenario of [main] (lines 95-110) *)

(** The braced list of line 107 is a temporary vector: it is placed at
    address 0 for the call of [createQuery] and gone before the list query
    is called. *)

Module Main.

Definition guid_db0 : gmap Z Z := <[0 := 0]> (<[16 := 1]> (<[32 := 2]> (<[64 := 3]> ∅))).

Definition st0 : Store := mkStore guid_db0 ∅ ∅.

Definition otto : string := "otto".

Definition program : M (nat * nat) :=
  query <- createQuery_guid 0 ;;
  _ <- register otto query ;;
  groupquery <- createQuery_label otto ;;
  range_query <- createQuery_range 0 32 ;;
  r1 <- evaluate 8 range_query ;;
  q16 <- createQuery_guid 16 ;;
  q32 <- createQuery_guid 32 ;;
  q64 <- createQuery_guid 64 ;;
  _ <- vector_assign 0%nat [groupquery; groupquery; q16; q32; q64] ;;
  list_q <- createQuery_list 0%nat ;;
  _ <- vector_destroy 0%nat ;;
  r2 <- evaluate 8 list_q ;;
  ret (size r1, size r2).

End Main.

(** Further stores used as examples. *)
Module Examples.

(** Two identifiers whose values are far apart. *)
Definition wide_st : Store :=
  mkStore (<[0 := -1]> (<[1 := 2147483647]> ∅)) ∅ ∅.

(** The store of [main] after line 102. *)
Definition otto_st : Store :=
  mkStore Main.guid_db0 (<["otto" := guid_query 0]> ∅) ∅.

(** A caller's vector at address 0 whose queries name a GUID and a group
    that are in neither database. *)
Definition vector_st : Store :=
  mkStore Main.guid_db0 ∅ (<[0%nat := [guid_query 5; label_query "nobody"]]> ∅).

(** The group "both" is registered after "otto" and refers to it. *)
Definition layered_st : Store :=
  mkStore Main.guid_db0
    (<["otto" := guid_query 0]>
       (<["both" := list_query [label_query "otto"; guid_query 16]]> ∅)) ∅.

Definition layered_rank (label : string) : nat :=
  if String.eqb label "both" then 1%nat else 0%nat.

(** A group that refers to itself from inside a list query, after a child
    that returns. *)
Definition list_loop_st : Store :=
  mkStore Main.guid_db0
    (<["a" := list_query [guid_query 0; label_query "b"]]>
       (<["b" := label_query "a"]> ∅)) ∅.

(** A group that refers to itself from inside a list query, after a child
    that throws. *)
Definition stopped_loop_st : Store :=
  mkStore Main.guid_db0
    (<["a" := list_query [guidrange_query 64 0; label_query "a"]]> ∅) ∅.

(** Two caller's vectors, with the group "otto" registered: the children
    of the first all return; in the second GUID 5 is absent and the range
    after it is reversed. *)
Definition capture_st : Store :=
  mkStore Main.guid_db0 (<["otto" := guid_query 0]> ∅)
    (<[0%nat := [label_query "otto"; guid_query 16; guid_query 64]]>
       (<[1%nat := [guid_query 16; guid_query 5; guidrange_query 64 0]]> ∅)).

(** A group that refers to itself through a second group. *)
Definition loop_st : Store :=
  mkStore ∅ (<["a" := label_query "b"]> (<["b" := label_query "a"]> ∅)) ∅.

End Examples.

(** ** The shape of a query *)

(** The labels that the closure of a query holds, its own and those of the
    children copied into it. *)
Fixpoint labels (q : Query) : list GroupLabel :=
  match q with
  | guid_query _ => []
  | guidrange_query _ _ => []
  | label_query label => [label]
  | list_query queries => concat (map labels queries)
  end.

(** The query registered under [a] holds a reference to the group [b]: it
    is that reference, or has it as a child, at any depth, of a list
    query. *)
Definition refers (st : Store) (a b : GroupLabel) : Prop :=
  exists query, group_db st !! a = Some query /\ b ∈ labels query.

(** The group [a] comes back to itself along such references. *)
Definition cyclic (st : Store) (a : GroupLabel) : Prop := tc (refers st) a a.

(** The call of a query gets as far as its reference to [l]: the query is
    that reference, or a list query in which every child before the one that
    gets to the reference returns a set (lines 84-88 call the children in
    order and go on only after a return). *)
Inductive reaches (st : Store) : Query -> GroupLabel -> Prop :=
| reaches_label l : reaches st (label_query l) l
| reaches_list pre child post l :
    Forall (fun c => exists s, evaluates_to st c (Returned s)) pre ->
    reaches st child l ->
    reaches st (list_query (pre ++ child :: post)) l.

(** The call of the query registered under [a] gets to a reference to [b]. *)
Definition calls (st : Store) (a b : GroupLabel) : Prop :=
  exists query, group_db st !! a = Some query /\ reaches st query b.

(** The calls started by a reference to [a] come back to a reference to
    [a]. *)
Definition reentered (st : Store) (a : GroupLabel) : Prop := tc (calls st) a a.

(** The calls that a query without group references stacks: its own and,
    for a list query, those of its deepest child. *)
Fixpoint depth (q : Query) : nat :=
  match q with
  | list_query queries => S (foldr (fun c d => depth c `max` d)%nat 0%nat queries)
  | _ => 1%nat
  end.

(** The group database is stratified by [rank] when every registered query
    holds only labels of a rank below that of its own label. *)
Definition stratified (st : Store) (rank : GroupLabel -> nat) : Prop :=
  forall label query,
    group_db st !! label = Some query ->
    Forall (fun l => (rank l < rank label)%nat) (labels query).

(** No registered query holds the label [g]. *)
Definition unreferenced (st : Store) (g : GroupLabel) : Prop :=
  forall label query, group_db st !! label = Some query -> g ∉ labels query.

(** The outcome of [makeFlidxSet(first, last)] in closed form, case by case;
    it is compared with [makeFlidxSet_range] below. *)
Definition makeFlidxSet_range_outcome (first last : Flidx) : Outcome FlidxSet :=
  if negb (in_int (last - first)) || negb (in_int (last - first + 1))
  then Undefined SignedOverflow
  else if last - first + 1 <? 0 then Thrown length_error
  else if (first <=? last) && (last =? INT_MAX) then Undefined SignedOverflow
  else Returned (list_to_set (seqZ first (last - first + 1))).

(** * Properties *)

(** [main] prints 3 and 4. *)
Example main_prints_3_and_4 :
  fst (Main.program Main.st0) = Returned (3%nat, 4%nat).
Proof. vm_compute. reflexivity. Qed.

(** ** No path of [evaluate] writes to the store or reports an error *)

Lemma quiet_ret {A : Type} (a : A) : quiet (ret a).
Proof. intros st. split; [reflexivity | discriminate]. Qed.

Lemma quiet_undefined {A : Type} (u : UB) : quiet (@undefined A u).
Proof. intros st. split; [reflexivity | discriminate]. Qed.

Lemma quiet_bind {A B : Type} (m : M A) (f : A -> M B) :
  quiet m -> (forall a, quiet (f a)) -> quiet (bind m f).
Proof.
  intros Hm Hf st. unfold bind. destruct (Hm st) as [Hs He].
  destruct (m st) as [[a|e|u|x|] st']; simpl in *; subst;
    try (split; [reflexivity | discriminate]).
  - apply Hf.
  - exfalso. apply (He e). reflexivity.
Qed.

Lemma quiet_guid_db_find guid : quiet (guid_db_find guid).
Proof. intros st. split; [reflexivity | discriminate]. Qed.

Lemma quiet_group_db_find label : quiet (group_db_find label).
Proof. intros st. split; [reflexivity | discriminate]. Qed.

Lemma quiet_second {A : Type} (it : option A) : quiet (second it).
Proof. destruct it; [apply quiet_ret | apply quiet_undefined]. Qed.

Lemma quiet_int_result z : quiet (int_result z).
Proof.
  unfold int_result. destruct (in_int z); [apply quiet_ret | apply quiet_undefined].
Qed.

Lemma quiet_vector_int n : quiet (vector_int n).
Proof.
  unfold vector_int. destruct (n <=? vector_max_size); [apply quiet_ret|].
  intros st. split; [reflexivity | discriminate].
Qed.

Lemma quiet_iota vals : forall value, quiet (iota vals value).
Proof.
  induction vals as [|x rest IH]; intros value; simpl.
  - apply quiet_ret.
  - apply quiet_bind; [apply quiet_int_result|]. intros v'.
    apply quiet_bind; [apply IH|]. intros r. apply quiet_ret.
Qed.

Lemma quiet_makeFlidxSet_range first last :
  quiet (makeFlidxSet_range first last).
Proof.
  unfold makeFlidxSet_range, int_sub, int_add.
  repeat (apply quiet_bind;
          [first [apply quiet_int_result | apply quiet_vector_int
                 | apply quiet_iota] | intros ?]).
  apply quiet_ret.
Qed.

Lemma quiet_for_queries call queries :
  (forall q, quiet (call q)) ->
  forall combi_res, quiet (for_queries call queries combi_res).
Proof.
  intros Hc. induction queries as [|q rest IH]; intros acc; simpl.
  - apply quiet_ret.
  - apply quiet_bind; [apply Hc|]. intros r. apply IH.
Qed.

Lemma quiet_evaluate fuel : forall q, quiet (evaluate fuel q).
Proof.
  induction fuel as [|n IH]; intros q.
  - intros st. split; [reflexivity | discriminate].
  - destruct q as [guid|first last|label|queries]; simpl.
    + apply quiet_bind; [apply quiet_guid_db_find|]. intros it.
      apply quiet_bind; [apply quiet_second|]. intros v.
      apply quiet_ret.
    + apply quiet_bind; [apply quiet_guid_db_find|]. intros it1.
      apply quiet_bind; [apply quiet_second|]. intros v1.
      apply quiet_bind; [apply quiet_guid_db_find|]. intros it2.
      apply quiet_bind; [apply quiet_second|]. intros v2.
      apply quiet_makeFlidxSet_range.
    + apply quiet_bind; [apply quiet_group_db_find|]. intros it.
      apply quiet_bind; [apply quiet_second|]. intros query.
      apply IH.
    + apply quiet_for_queries. apply IH.
Qed.

Lemma evaluate_run fuel q st : evaluate fuel q st = (run fuel q st, st).
Proof.
  unfold run. destruct (quiet_evaluate fuel q st) as [H _].
  destruct (evaluate fuel q st) as [o st']. simpl in *. congruence.
Qed.

(** ** The outcome of each kind of query *)

Lemma run_guid_query fuel guid st :
  run (S fuel) (guid_query guid) st =
  match guid_db st !! guid with
  | Some single => Returned ({[ single ]} ∪ ∅)
  | None => Undefined DerefEnd
  end.
Proof.
  unfold run. simpl. unfold bind, guid_db_find.
  destruct (guid_db st !! guid); reflexivity.
Qed.

Lemma run_guidrange_query fuel first last st :
  run (S fuel) (guidrange_query first last) st =
  match guid_db st !! first, guid_db st !! last with
  | Some v1, Some v2 => fst (makeFlidxSet_range v1 v2 st)
  | _, _ => Undefined DerefEnd
  end.
Proof.
  unfold run. simpl. unfold bind at 1 2 3 4. unfold guid_db_find.
  destruct (guid_db st !! first); simpl; [|reflexivity].
  destruct (guid_db st !! last); reflexivity.
Qed.

Lemma run_label_query fuel label st :
  run (S fuel) (label_query label) st =
  match group_db st !! label with
  | Some query => run fuel query st
  | None => Undefined DerefEnd
  end.
Proof.
  unfold run. simpl. unfold bind, group_db_find.
  destruct (group_db st !! label); reflexivity.
Qed.

Lemma run_list_query fuel queries st :
  run (S fuel) (list_query queries) st =
  fst (for_queries (evaluate fuel) queries ∅ st).
Proof. reflexivity. Qed.

Lemma for_queries_cons fuel query rest combi_res st :
  for_queries (evaluate fuel) (query :: rest) combi_res st =
  match run fuel query st with
  | Returned query_res =>
      for_queries (evaluate fuel) rest (combi_res ∪ query_res) st
  | Failed e => (Failed e, st)
  | Undefined u => (Undefined u, st)
  | Thrown x => (Thrown x, st)
  | OutOfFuel => (OutOfFuel, st)
  end.
Proof.
  cbn [for_queries]. unfold bind. rewrite evaluate_run.
  destruct (run fuel query st); reflexivity.
Qed.

(** ** More fuel does not change a completed outcome *)

Lemma for_queries_fuel_S fuel queries :
  (forall q st o, run fuel q st = o -> o <> OutOfFuel -> run (S fuel) q st = o) ->
  forall combi_res st o,
    fst (for_queries (evaluate fuel) queries combi_res st) = o ->
    o <> OutOfFuel ->
    fst (for_queries (evaluate (S fuel)) queries combi_res st) = o.
Proof.
  intros IH. induction queries as [|q rest IHq]; intros acc st o Ho Hne.
  - exact Ho.
  - rewrite for_queries_cons in Ho. rewrite for_queries_cons.
    destruct (run fuel q st) as [s|e|u|x|] eqn:Hq; simpl in Ho;
      try (erewrite IH; [|exact Hq|discriminate]; simpl; exact Ho).
    + erewrite IH; [|exact Hq|discriminate]. apply IHq; assumption.
    + congruence.
Qed.

Lemma run_fuel_S fuel :
  forall q st o, run fuel q st = o -> o <> OutOfFuel -> run (S fuel) q st = o.
Proof.
  induction fuel as [|n IH]; intros q st o Ho Hne.
  - unfold run in Ho. simpl in Ho. congruence.
  - destruct q as [guid|first last|label|queries].
    + rewrite run_guid_query in *. exact Ho.
    + rewrite run_guidrange_query in *. exact Ho.
    + rewrite run_label_query in *.
      destruct (group_db st !! label); [apply IH; assumption | exact Ho].
    + rewrite run_list_query in *. apply for_queries_fuel_S; assumption.
Qed.

Lemma run_fuel_le fuel fuel' q st o :
  (fuel <= fuel')%nat -> run fuel q st = o -> o <> OutOfFuel ->
  run fuel' q st = o.
Proof.
  induction 1 as [|m Hle IH]; intros Ho Hne; [exact Ho|].
  apply run_fuel_S; auto.
Qed.

Lemma evaluates_to_unique st q o1 o2 :
  evaluates_to st q o1 -> evaluates_to st q o2 -> o1 = o2.
Proof.
  intros (n1 & H1 & Hne1) (n2 & H2 & Hne2).
  rewrite <- (run_fuel_le n1 (n1 `max` n2)%nat q st o1) by (auto; lia).
  rewrite <- (run_fuel_le n2 (n1 `max` n2)%nat q st o2) by (auto; lia).
  reflexivity.
Qed.

Lemma diverges_not_evaluates st q o : diverges st q -> ~ evaluates_to st q o.
Proof. intros Hd (n & Ho & Hne). rewrite Hd in Ho. congruence. Qed.

(** The source reports none of the specification's errors. *)
Lemma run_not_Failed fuel q st e : run fuel q st <> Failed e.
Proof. unfold run. apply quiet_evaluate. Qed.

(** ** [makeFlidxSet] on two values *)

Lemma in_int_true z : INT_MIN <= z <= INT_MAX -> in_int z = true.
Proof. unfold in_int. intros [H1 H2]. apply andb_true_iff. split; apply Z.leb_le; assumption. Qed.

Lemma in_int_false z : z < INT_MIN \/ INT_MAX < z -> in_int z = false.
Proof.
  unfold in_int. intros H. apply andb_false_iff.
  destruct H; [left | right]; apply Z.leb_gt; assumption.
Qed.

Lemma bind_ret {A B : Type} (a : A) (f : A -> M B) : bind (ret a) f = f a.
Proof. reflexivity. Qed.

Lemma bind_Returned {A B : Type} (m : M A) (f : A -> M B) st a st' :
  m st = (Returned a, st') -> bind m f st = f a st'.
Proof. intros H. unfold bind. rewrite H. reflexivity. Qed.

Lemma iota_seqZ vals : forall value st,
  INT_MIN <= value ->
  value + Z.of_nat (length vals) <= INT_MAX ->
  iota vals value st = (Returned (seqZ value (Z.of_nat (length vals))), st).
Proof.
  induction vals as [|x rest IH]; intros value st Hlo Hhi.
  - reflexivity.
  - cbn [iota length] in *. unfold int_add, int_result.
    rewrite in_int_true by lia. rewrite bind_ret.
    erewrite bind_Returned by (apply IH; lia).
    rewrite (seqZ_cons value) by lia.
    replace (Z.pred (Z.of_nat (S (length rest)))) with (Z.of_nat (length rest)) by lia.
    reflexivity.
Qed.

(** With [first <= last] and no overflow, all of [first .. last]. *)
Lemma makeFlidxSet_range_ok first last st :
  INT_MIN <= first -> first <= last -> last < INT_MAX ->
  last - first + 1 <= INT_MAX ->
  makeFlidxSet_range first last st =
  (Returned (list_to_set (seqZ first (last - first + 1))), st).
Proof.
  intros Hlo Hle Hhi Hlen. unfold makeFlidxSet_range, int_sub, int_add, int_result.
  rewrite in_int_true by (unfold INT_MIN, INT_MAX in *; lia). rewrite bind_ret.
  rewrite in_int_true by (unfold INT_MIN, INT_MAX in *; lia). rewrite bind_ret.
  unfold to_size_t, vector_int.
  rewrite Z.mod_small by (unfold SIZE_MODULUS, INT_MAX in *; lia).
  replace (last - first + 1 <=? vector_max_size) with true
    by (symmetry; apply Z.leb_le; unfold vector_max_size, INT_MAX in *; lia).
  rewrite bind_ret.
  erewrite bind_Returned
    by (apply iota_seqZ; rewrite ?length_replicate; unfold INT_MAX in *; lia).
  rewrite length_replicate, Z2Nat.id by lia.
  unfold ret, insert_range. f_equal. f_equal. apply (left_id_L ∅ (∪)).
Qed.

(** With [first = last + 1] the vector is empty, and so is the set. *)
Lemma makeFlidxSet_range_empty last st :
  makeFlidxSet_range (last + 1) last st = (Returned ∅, st).
Proof.
  unfold makeFlidxSet_range, int_sub, int_add, int_result.
  replace (last - (last + 1)) with (-1) by lia.
  reflexivity.
Qed.

(** With [first > last + 1] the length given to the vector is negative:
    converted to [size_t] it exceeds [max_size()]. *)
Lemma makeFlidxSet_range_length_error first last st :
  last + 1 < first -> INT_MIN <= last - first ->
  makeFlidxSet_range first last st = (Thrown length_error, st).
Proof.
  intros Hlt Hlo. unfold makeFlidxSet_range, int_sub, int_add, int_result.
  rewrite in_int_true by (unfold INT_MIN, INT_MAX in *; lia). rewrite bind_ret.
  rewrite in_int_true by (unfold INT_MIN, INT_MAX in *; lia). rewrite bind_ret.
  unfold to_size_t, vector_int.
  replace ((last - first + 1) mod SIZE_MODULUS <=? vector_max_size) with false.
  - reflexivity.
  - symmetry. apply Z.leb_gt. unfold SIZE_MODULUS, vector_max_size, INT_MIN in *.
    set (n := last - first + 1) in *.
    assert (Hn : n mod 2 ^ 64 = n + 2 ^ 64).
    { symmetry. apply (Z.mod_unique_pos _ _ (-1)); lia. }
    rewrite Hn. lia.
Qed.

(** The subtraction [last - first] itself can leave [int]. *)
Lemma makeFlidxSet_range_overflow first last st :
  last - first < INT_MIN \/ INT_MAX < last - first ->
  makeFlidxSet_range first last st = (Undefined SignedOverflow, st).
Proof.
  intros H. unfold makeFlidxSet_range, int_sub, int_result.
  rewrite in_int_false by assumption. reflexivity.
Qed.

(** A query built by the factory and called at once: [createQuery(...)()]. *)
Lemma built_then_run (m : M Query) q fuel st :
  m st = (Returned q, st) ->
  (q' <- m ;; evaluate fuel q') st = (run fuel q st, st).
Proof. intros H. erewrite bind_Returned by exact H. apply evaluate_run. Qed.

(** * The point query *)

(** C4: for every identifier [i] that is present in the GUID database,
    [createQuery(i)()] returns exactly the singleton set holding the value
    stored for [i]. *)
Theorem point_returns_singleton st i v fuel :
  guid_db st !! i = Some v ->
  fst ((q <- createQuery_guid i ;; evaluate (S fuel) q) st) = Returned {[ v ]}.
Proof.
  intros Hi. rewrite (built_then_run _ (guid_query i)) by reflexivity.
  simpl. rewrite run_guid_query, Hi. f_equal. apply (right_id_L ∅ (∪)).
Qed.

Lemma point_returns_singleton_witness :
  guid_db Main.st0 !! 16 = Some 1 /\
  fst ((q <- createQuery_guid 16 ;; evaluate 1 q) Main.st0) = Returned {[ 1 ]}.
Proof.
  split; [reflexivity|].
  apply (point_returns_singleton Main.st0 16 1 0). reflexivity.
Defined.

(** C7 as the specification states it does not hold: GUID 5 is absent from
    the database of [main], and the point query on it runs into
    [end()->second]; it does not complete with [NotFound]. *)
Lemma absent_guid_is_not_reported :
  guid_db Main.st0 !! 5 = None /\
  fst ((q <- createQuery_guid 5 ;; evaluate 1 q) Main.st0) = Undefined DerefEnd /\
  ~ (exists fuel,
       fst ((q <- createQuery_guid 5 ;; evaluate fuel q) Main.st0) = Failed NotFound).
Proof.
  split; [reflexivity|]. split; [reflexivity|].
  intros [fuel H]. rewrite (built_then_run _ (guid_query 5)) in H by reflexivity.
  exact (run_not_Failed _ _ _ _ H).
Qed.

(** C7, amended: for every identifier [i] that is absent from the GUID
    database, [createQuery(i)()] dereferences the iterator [end()] that
    [find] returns, which is undefined behaviour; no error is reported, and
    up to that point the store is untouched. *)
Theorem point_absent_undefined st i fuel :
  guid_db st !! i = None ->
  (q <- createQuery_guid i ;; evaluate (S fuel) q) st = (Undefined DerefEnd, st).
Proof.
  intros Hi. rewrite (built_then_run _ (guid_query i)) by reflexivity.
  rewrite run_guid_query, Hi. reflexivity.
Qed.

Lemma point_absent_undefined_witness :
  guid_db Main.st0 !! 5 = None /\
  (q <- createQuery_guid 5 ;; evaluate 1 q) Main.st0 = (Undefined DerefEnd, Main.st0).
Proof.
  split; [reflexivity|].
  apply (point_absent_undefined Main.st0 5 0). reflexivity.
Defined.

(** * The range query *)

Lemma built_range_run first last v1 v2 fuel st :
  guid_db st !! first = Some v1 -> guid_db st !! last = Some v2 ->
  (q <- createQuery_range first last ;; evaluate (S fuel) q) st =
  makeFlidxSet_range v1 v2 st.
Proof.
  intros H1 H2.
  rewrite (built_then_run _ (guidrange_query first last)) by reflexivity.
  rewrite run_guidrange_query, H1, H2.
  destruct (quiet_makeFlidxSet_range v1 v2 st) as [Hs _].
  destruct (makeFlidxSet_range v1 v2 st) as [o st']. simpl in *. congruence.
Qed.

(** C5 as the specification states it does not hold for every pair of
    values: with -1 stored for the first identifier and [INT_MAX] for the
    last, the length [last - first + 1] is not an [int], and no set is
    returned. *)
Lemma wide_range_overflows :
  guid_db Examples.wide_st !! 0 = Some (-1) /\
  guid_db Examples.wide_st !! 1 = Some 2147483647 /\
  fst ((q <- createQuery_range 0 1 ;; evaluate 1 q) Examples.wide_st)
    = Undefined SignedOverflow /\
  ~ (exists fuel s,
       fst ((q <- createQuery_range 0 1 ;; evaluate fuel q) Examples.wide_st)
         = Returned s).
Proof.
  split; [reflexivity|]. split; [reflexivity|]. split; [reflexivity|].
  intros (fuel & s & H).
  destruct fuel as [|fuel]; [discriminate H|].
  rewrite (built_range_run 0 1 (-1) 2147483647) in H by reflexivity.
  discriminate H.
Qed.

(** C5, amended: for every pair of identifiers [first], [last] present in
    the GUID database whose values [v1 <= v2] are such that neither the
    length [v2 - v1 + 1] nor the last increment of [std::iota] leaves [int]
    (that is [v2 - v1 + 1 <= INT_MAX] and [v2 < INT_MAX]),
    [createQuery(first, last)()] returns a set of cardinality
    [v2 - v1 + 1] that contains [v1], [v2] and exactly the values between
    them. *)
Theorem range_returns_interval st first last v1 v2 fuel :
  guid_db st !! first = Some v1 -> guid_db st !! last = Some v2 ->
  INT_MIN <= v1 -> v1 <= v2 -> v2 < INT_MAX -> v2 - v1 + 1 <= INT_MAX ->
  exists s : gset Z,
    fst ((q <- createQuery_range first last ;; evaluate (S fuel) q) st)
      = Returned s /\
    Z.of_nat (size s) = v2 - v1 + 1 /\
    v1 ∈ s /\ v2 ∈ s /\
    forall v, v ∈ s <-> v1 <= v <= v2.
Proof.
  intros H1 H2 Hlo Hle Hhi Hlen.
  exists (list_to_set (seqZ v1 (v2 - v1 + 1))).
  rewrite (built_range_run first last v1 v2) by assumption.
  rewrite makeFlidxSet_range_ok by assumption.
  assert (Hin : forall v, v ∈ (list_to_set (seqZ v1 (v2 - v1 + 1)) : gset Z)
                          <-> v1 <= v <= v2).
  { intros v. rewrite elem_of_list_to_set, elem_of_seqZ. lia. }
  split; [reflexivity|]. split.
  - rewrite size_list_to_set by apply NoDup_seqZ. rewrite length_seqZ. lia.
  - split; [apply Hin; lia|]. split; [apply Hin; lia|]. exact Hin.
Qed.

Lemma range_returns_interval_witness :
  exists s : gset Z,
    fst ((q <- createQuery_range 0 32 ;; evaluate 1 q) Main.st0) = Returned s /\
    Z.of_nat (size s) = 2 - 0 + 1 /\
    0 ∈ s /\ 2 ∈ s /\
    forall v, v ∈ s <-> 0 <= v <= 2.
Proof.
  apply (range_returns_interval Main.st0 0 32 0 2 0);
    first [reflexivity | unfold INT_MIN, INT_MAX; lia].
Defined.

(** C2 as the specification states it does not hold: in the database of
    [main] GUID 16 has value 1 and GUID 0 has value 0, and the range query
    from 16 to 0 returns the empty set; it does not complete with
    [InvalidRange]. *)
Lemma reversed_range_returns_empty :
  guid_db Main.st0 !! 16 = Some 1 /\
  guid_db Main.st0 !! 0 = Some 0 /\
  fst ((q <- createQuery_range 16 0 ;; evaluate 1 q) Main.st0) = Returned ∅ /\
  ~ (exists fuel,
       fst ((q <- createQuery_range 16 0 ;; evaluate fuel q) Main.st0)
         = Failed InvalidRange).
Proof.
  split; [reflexivity|]. split; [reflexivity|]. split; [reflexivity|].
  intros [fuel H].
  rewrite (built_then_run _ (guidrange_query 16 0)) in H by reflexivity.
  exact (run_not_Failed _ _ _ _ H).
Qed.

(** C2, amended: for every pair of identifiers [first], [last] present in
    the GUID database with values [v1 > v2], [createQuery(first, last)()]
    reports no [InvalidRange].  When [v1 = v2 + 1] it returns the empty set.
    When [v1 > v2 + 1] it returns no set: the vector is constructed with a
    negative length and throws [std::length_error], or, when [v2 - v1] is
    not an [int], the subtraction is undefined behaviour.  The store is
    untouched. *)
Theorem range_reversed st first last v1 v2 fuel :
  guid_db st !! first = Some v1 -> guid_db st !! last = Some v2 ->
  v1 > v2 ->
  (q <- createQuery_range first last ;; evaluate (S fuel) q) st =
  (if v1 =? v2 + 1 then Returned ∅
   else if in_int (v2 - v1) then Thrown length_error
   else Undefined SignedOverflow, st).
Proof.
  intros H1 H2 Hgt. rewrite (built_range_run first last v1 v2) by assumption.
  destruct (Z.eqb_spec v1 (v2 + 1)) as [->|Hne].
  - apply makeFlidxSet_range_empty.
  - destruct (in_int (v2 - v1)) eqn:Hin.
    + unfold in_int in Hin. apply andb_true_iff in Hin as [Hlo _].
      apply Z.leb_le in Hlo. apply makeFlidxSet_range_length_error; lia.
    + unfold in_int in Hin. apply andb_false_iff in Hin.
      apply makeFlidxSet_range_overflow.
      destruct Hin as [Hin|Hin]; apply Z.leb_gt in Hin; [left | right]; exact Hin.
Qed.

Lemma range_reversed_witness :
  (q <- createQuery_range 64 0 ;; evaluate 1 q) Main.st0
  = (Thrown length_error, Main.st0).
Proof.
  apply (range_reversed Main.st0 64 0 3 0 0); first [reflexivity | lia].
Defined.

(** * Group references *)

(** C1 as the specification states it does not hold: in the store of [main]
    before line 102 no group is registered, and a reference to the group "g"
    runs into [end()->second]; it does not complete with [NotFound]. *)
Lemma unregistered_label_is_not_reported :
  group_db Main.st0 !! "g" = None /\
  fst ((gq <- createQuery_label "g" ;; evaluate 1 gq) Main.st0)
    = Undefined DerefEnd /\
  ~ (exists fuel,
       fst ((gq <- createQuery_label "g" ;; evaluate fuel gq) Main.st0)
         = Failed NotFound).
Proof.
  split; [reflexivity|]. split; [reflexivity|].
  intros [fuel H].
  rewrite (built_then_run _ (label_query "g")) in H by reflexivity.
  exact (run_not_Failed _ _ _ _ H).
Qed.

(** C1, amended: a group reference looks its label up in the group database
    at every call, not when it is built.  For every label [g] that is not yet
    registered and every query [q]: a reference to [g] that is built and
    called before the registration dereferences [end()], which is undefined
    behaviour (no [NotFound] is reported); the same reference, built before
    [group_db[g] = q] and called after it, has the outcome of [q()] in the
    store after the registration, at one more level of calls; so it returns
    the same set whenever [q()] returns one. *)
Theorem groupref_late_binding st g q fuel :
  group_db st !! g = None ->
  (gq <- createQuery_label g ;; evaluate (S fuel) gq) st
    = (Undefined DerefEnd, st) /\
  fst ((gq <- createQuery_label g ;; _ <- register g q ;; evaluate (S fuel) gq) st)
    = fst ((_ <- register g q ;; evaluate fuel q) st).
Proof.
  intros Hg. split.
  - rewrite (built_then_run _ (label_query g)) by reflexivity.
    rewrite run_label_query, Hg. reflexivity.
  - unfold createQuery_label. rewrite bind_ret.
    unfold bind at 1 2, register. cbn [fst snd].
    change (fst (evaluate (S fuel) (label_query g) ?st')) with
      (run (S fuel) (label_query g) st').
    rewrite run_label_query. cbn [group_db].
    rewrite lookup_insert_eq. reflexivity.
Qed.

Lemma groupref_late_binding_witness :
  group_db Main.st0 !! Main.otto = None /\
  (gq <- createQuery_label Main.otto ;; evaluate 2 gq) Main.st0
    = (Undefined DerefEnd, Main.st0) /\
  fst ((gq <- createQuery_label Main.otto ;;
        _ <- register Main.otto (guid_query 0) ;; evaluate 2 gq) Main.st0)
    = fst ((_ <- register Main.otto (guid_query 0) ;;
            evaluate 1 (guid_query 0)) Main.st0).
Proof.
  split; [reflexivity|].
  apply (groupref_late_binding Main.st0 Main.otto (guid_query 0) 1).
  reflexivity.
Defined.

(** * The list query *)

Lemma for_queries_all_return fuel st queries sets :
  Forall2 (fun q s => run fuel q st = Returned s) queries sets ->
  forall combi_res,
    for_queries (evaluate fuel) queries combi_res st
    = (Returned (combi_res ∪ ⋃ sets), st).
Proof.
  induction 1 as [|q s queries sets Hq _ IH]; intros acc.
  - simpl. unfold ret. do 2 f_equal. symmetry. apply (right_id_L ∅ (∪)).
  - rewrite for_queries_cons, Hq, IH. simpl.
    do 2 f_equal. symmetry. apply (assoc_L (∪)).
Qed.







Lemma for_queries_first_stop fuel st child post :
  (forall s, run fuel child st <> Returned s) ->
  forall pre combi_res,
    Forall (fun c => exists s, run fuel c st = Returned s) pre ->
    fst (for_queries (evaluate fuel) (pre ++ child :: post) combi_res st)
    = run fuel child st.
Proof.
  intros Hstop. induction pre as [|c pre IH]; intros acc Hpre.
  - simpl app. rewrite for_queries_cons.
    destruct (run fuel child st) as [s| | | |]; try reflexivity.
    exfalso. eapply Hstop. reflexivity.
  - inversion Hpre as [|? ? [s Hc] Hrest]; subst.
    simpl app. rewrite for_queries_cons, Hc. apply IH. exact Hrest.
Qed.

(** * Building a query *)

Lemma createQuery_list_builds st a queries :
  vectors st !! a = Some queries ->
  createQuery_list a st = (Returned (list_query queries), st).
Proof.
  intros Ha. unfold createQuery_list, bind, vector_deref. rewrite Ha. reflexivity.
Qed.

(** C8: each of the four [createQuery] overloads returns its closure at
    once and leaves the store as it is, for every GUID, pair of GUIDs, label
    and vector of queries, whether or not the GUIDs are in the GUID database
    and the label is in the group database; what it returns is the same
    whatever the two databases hold, so neither is looked up. *)
Theorem createQuery_never_fails st :
  (forall guid, createQuery_guid guid st = (Returned (guid_query guid), st)) /\
  (forall first last,
     createQuery_range first last st
     = (Returned (guidrange_query first last), st)) /\
  (forall label,
     createQuery_label label st = (Returned (label_query label), st)) /\
  (forall a queries,
     vectors st !! a = Some queries ->
     createQuery_list a st = (Returned (list_query queries), st)) /\
  (forall db reg guid first last label a,
     let st' := mkStore db reg (vectors st) in
     fst (createQuery_guid guid st') = fst (createQuery_guid guid st) /\
     fst (createQuery_range first last st')
       = fst (createQuery_range first last st) /\
     fst (createQuery_label label st') = fst (createQuery_label label st) /\
     fst (createQuery_list a st') = fst (createQuery_list a st)).
Proof.
  repeat split; try reflexivity.
  - intros a queries. apply createQuery_list_builds.
  - unfold createQuery_list, bind, vector_deref. simpl.
    destruct (vectors st !! a); reflexivity.
Qed.

Lemma createQuery_never_fails_witness :
  guid_db Examples.vector_st !! 5 = None /\
  group_db Examples.vector_st !! "nobody" = None /\
  createQuery_guid 5 Examples.vector_st
    = (Returned (guid_query 5), Examples.vector_st) /\
  createQuery_range 5 7 Examples.vector_st
    = (Returned (guidrange_query 5 7), Examples.vector_st) /\
  createQuery_label "nobody" Examples.vector_st
    = (Returned (label_query "nobody"), Examples.vector_st) /\
  createQuery_list 0%nat Examples.vector_st
    = (Returned (list_query [guid_query 5; label_query "nobody"]),
       Examples.vector_st).
Proof.
  destruct (createQuery_never_fails Examples.vector_st)
    as (Hg & Hr & Hl & Hv & _).
  split; [reflexivity|]. split; [reflexivity|].
  split; [apply Hg|]. split; [apply Hr|]. split; [apply Hl|].
  apply Hv. reflexivity.
Defined.

(** * Calling a query *)

Lemma store_free_ret {A : Type} (a : A) : store_free (ret a).
Proof. exists (Returned a). reflexivity. Qed.

Lemma store_free_bind {A B : Type} (m : M A) (f : A -> M B) :
  store_free m -> (forall a, store_free (f a)) -> store_free (bind m f).
Proof.
  intros [o Ho] Hf. unfold bind. destruct o as [a|e|u|x|].
  - destruct (Hf a) as [o' Ho']. exists o'. intros st. rewrite Ho. apply Ho'.
  - exists (Failed e). intros st. by rewrite Ho.
  - exists (Undefined u). intros st. by rewrite Ho.
  - exists (Thrown x). intros st. by rewrite Ho.
  - exists OutOfFuel. intros st. by rewrite Ho.
Qed.

Lemma store_free_int_result z : store_free (int_result z).
Proof.
  unfold int_result. destruct (in_int z); [apply store_free_ret|].
  exists (Undefined SignedOverflow). reflexivity.
Qed.

Lemma store_free_vector_int n : store_free (vector_int n).
Proof.
  unfold vector_int. destruct (n <=? vector_max_size); [apply store_free_ret|].
  exists (Thrown length_error). reflexivity.
Qed.

Lemma store_free_iota vals : forall value, store_free (iota vals value).
Proof.
  induction vals as [|x rest IH]; intros value; simpl.
  - apply store_free_ret.
  - apply store_free_bind; [apply store_free_int_result|]. intros v'.
    apply store_free_bind; [apply IH|]. intros r. apply store_free_ret.
Qed.

Lemma store_free_makeFlidxSet_range first last :
  store_free (makeFlidxSet_range first last).
Proof.
  unfold makeFlidxSet_range, int_sub, int_add.
  repeat (apply store_free_bind;
          [first [apply store_free_int_result | apply store_free_vector_int
                 | apply store_free_iota] | intros ?]).
  apply store_free_ret.
Qed.

(** The outcome of a call depends on the two databases only. *)
Lemma run_same_databases fuel :
  forall q st st',
    guid_db st' = guid_db st -> group_db st' = group_db st ->
    run fuel q st' = run fuel q st.
Proof.
  induction fuel as [|n IH]; intros q st st' Hdb Hreg; [reflexivity|].
  destruct q as [guid|first last|label|queries].
  - rewrite !run_guid_query, Hdb. reflexivity.
  - rewrite !run_guidrange_query, Hdb.
    destruct (guid_db st !! first) as [v1|]; [|reflexivity].
    destruct (guid_db st !! last) as [v2|]; [|reflexivity].
    destruct (store_free_makeFlidxSet_range v1 v2) as [o Ho].
    by rewrite !Ho.
  - rewrite !run_label_query, Hreg.
    destruct (group_db st !! label); [by apply IH | reflexivity].
  - rewrite !run_list_query. generalize (∅ : gset Z).
    induction queries as [|c rest IHq]; intros acc; [reflexivity|].
    rewrite !for_queries_cons, (IH c st st' Hdb Hreg).
    destruct (run n c st); try reflexivity. apply IHq.
Qed.

(** C9: for every query and every state of the two databases, a call
    leaves the store as it found it, whatever its outcome (a return, an
    exception, or the point where it stops at undefined behaviour or at the
    bottom of the stack); a second call straight after the first has the
    same outcome; and two completed calls against equal databases have the
    same outcome, hence return the same set. *)
Theorem evaluate_is_pure fuel q st :
  snd (evaluate fuel q st) = st /\
  (forall r1, fst (evaluate fuel q st) = Returned r1 ->
     (_ <- evaluate fuel q ;; evaluate fuel q) st = (Returned r1, st)) /\
  (forall st' fuel',
     guid_db st' = guid_db st -> group_db st' = group_db st ->
     run fuel q st <> OutOfFuel -> run fuel' q st' <> OutOfFuel ->
     run fuel' q st' = run fuel q st).
Proof.
  split; [apply quiet_evaluate|]. split.
  - intros r1 Hr. unfold bind. rewrite evaluate_run.
    change (run fuel q st = Returned r1) in Hr. rewrite Hr, evaluate_run, Hr.
    reflexivity.
  - intros st' fuel' Hdb Hreg H1 H2.
    rewrite (run_same_databases fuel' q st st' Hdb Hreg) in *.
    apply (evaluates_to_unique st q);
      [exists fuel' | exists fuel]; (split; [reflexivity | assumption]).
Qed.

Lemma evaluate_is_pure_witness :
  let q := list_query [label_query "otto"; guidrange_query 0 32] in
  snd (evaluate 3 q Examples.otto_st) = Examples.otto_st /\
  (_ <- evaluate 3 q ;; evaluate 3 q) Examples.otto_st
    = (Returned (⋃ [ {[0]}; {[1]}; {[2]} ]), Examples.otto_st) /\
  run 7 q Examples.otto_st = run 3 q Examples.otto_st.
Proof.
  intros q.
  destruct (evaluate_is_pure 3 q Examples.otto_st) as (Hs & Htwice & Hsame).
  split; [exact Hs|]. split.
  - apply Htwice. vm_compute. reflexivity.
  - apply Hsame; first [reflexivity | vm_compute; discriminate].
Defined.

(** C10: the list query holds its own copy of the vector it was built
    from.  It calls exactly the children that the vector held when
    [createQuery] ran, in the order of the vector: when they all return, the
    result is the union of their sets, and otherwise the first child whose
    call does not return decides the outcome, whatever comes after it.
    Giving the caller's vector another content or ending its lifetime after
    [createQuery] changes no later call; the children are not looked up
    again, as the label of a group reference is. *)
Theorem union_captures_by_value st a queries fuel :
  vectors st !! a = Some queries ->
  (forall queries',
     fst ((q <- createQuery_list a ;; _ <- vector_assign a queries' ;;
           evaluate fuel q) st)
     = run fuel (list_query queries) st) /\
  fst ((q <- createQuery_list a ;; _ <- vector_destroy a ;; evaluate fuel q) st)
    = run fuel (list_query queries) st /\
  (forall vs', run fuel (list_query queries)
                 (mkStore (guid_db st) (group_db st) vs')
               = run fuel (list_query queries) st) /\
  (forall pre child post,
     queries = pre ++ child :: post ->
     Forall (fun c => exists s, run fuel c st = Returned s) pre ->
     (forall s, run fuel child st <> Returned s) ->
     run (S fuel) (list_query queries) st = run fuel child st) /\
  (forall sets queries',
     Forall2 (fun c r => run fuel c st = Returned r) queries sets ->
     fst ((q <- createQuery_list a ;; _ <- vector_assign a queries' ;;
           evaluate (S fuel) q) st) = Returned (⋃ sets) /\
     fst ((q <- createQuery_list a ;; _ <- vector_destroy a ;;
           evaluate (S fuel) q) st) = Returned (⋃ sets)) /\
  (forall pre child post queries',
     queries = pre ++ child :: post ->
     Forall (fun c => exists s, run fuel c st = Returned s) pre ->
     (forall s, run fuel child st <> Returned s) ->
     fst ((q <- createQuery_list a ;; _ <- vector_assign a queries' ;;
           evaluate (S fuel) q) st) = run fuel child st /\
     fst ((q <- createQuery_list a ;; _ <- vector_destroy a ;;
           evaluate (S fuel) q) st) = run fuel child st).
Proof.
  intros Ha.
  assert (Hassign : forall n queries',
            fst ((q <- createQuery_list a ;; _ <- vector_assign a queries' ;;
                  evaluate n q) st) = run n (list_query queries) st).
  { intros n queries'.
    erewrite bind_Returned by (apply createQuery_list_builds; exact Ha).
    unfold bind, vector_assign.
    apply (run_same_databases n (list_query queries) st); reflexivity. }
  assert (Hdestroy : forall n,
            fst ((q <- createQuery_list a ;; _ <- vector_destroy a ;;
                  evaluate n q) st) = run n (list_query queries) st).
  { intros n.
    erewrite bind_Returned by (apply createQuery_list_builds; exact Ha).
    unfold bind, vector_destroy.
    apply (run_same_databases n (list_query queries) st); reflexivity. }
  assert (Horder : forall pre child post,
            queries = pre ++ child :: post ->
            Forall (fun c => exists s, run fuel c st = Returned s) pre ->
            (forall s, run fuel child st <> Returned s) ->
            run (S fuel) (list_query queries) st = run fuel child st).
  { intros pre child post -> Hpre Hstop. rewrite run_list_query.
    apply for_queries_first_stop; assumption. }
  assert (Hall : forall sets,
            Forall2 (fun c r => run fuel c st = Returned r) queries sets ->
            run (S fuel) (list_query queries) st = Returned (⋃ sets)).
  { intros sets Hsets.
    rewrite run_list_query, (for_queries_all_return fuel st queries sets Hsets).
    simpl. f_equal. apply (left_id_L ∅ (∪)). }
  split; [apply Hassign|]. split; [apply Hdestroy|].
  split; [intros vs'; apply run_same_databases; reflexivity|].
  split; [exact Horder|]. split.
  - intros sets queries' Hsets. rewrite Hassign, Hdestroy.
    split; apply Hall; exact Hsets.
  - intros pre child post queries' Hq Hpre Hstop. rewrite Hassign, Hdestroy.
    split; apply (Horder pre child post); assumption.
Qed.

Lemma union_captures_by_value_witness :
  vectors Examples.capture_st !! 0%nat
    = Some [label_query "otto"; guid_query 16; guid_query 64] /\
  vectors Examples.capture_st !! 1%nat
    = Some [guid_query 16; guid_query 5; guidrange_query 64 0] /\
  fst ((q <- createQuery_list 0%nat ;; _ <- vector_assign 0%nat [guid_query 32] ;;
        evaluate 3 q) Examples.capture_st)
    = Returned (⋃ [ {[0]}; {[1]}; {[3]} ]) /\
  fst ((q <- createQuery_list 0%nat ;; _ <- vector_destroy 0%nat ;;
        evaluate 3 q) Examples.capture_st)
    = Returned (⋃ [ {[0]}; {[1]}; {[3]} ]) /\
  fst ((q <- createQuery_list 1%nat ;; _ <- vector_assign 1%nat [] ;;
        evaluate 3 q) Examples.capture_st)
    = Undefined DerefEnd /\
  fst ((q <- createQuery_list 1%nat ;; _ <- vector_destroy 1%nat ;;
        evaluate 3 q) Examples.capture_st)
    = Undefined DerefEnd.
Proof.
  destruct (union_captures_by_value Examples.capture_st 0%nat
              [label_query "otto"; guid_query 16; guid_query 64] 2 eq_refl)
    as (_ & _ & _ & _ & Hall & _).
  destruct (union_captures_by_value Examples.capture_st 1%nat
              [guid_query 16; guid_query 5; guidrange_query 64 0] 2 eq_refl)
    as (_ & _ & _ & _ & _ & Hstop).
  split; [reflexivity|]. split; [reflexivity|].
  assert (H0 : Forall2 (fun c r => run 2 c Examples.capture_st = Returned r)
                 [label_query "otto"; guid_query 16; guid_query 64]
                 [ {[0]}; {[1]}; {[3]} ]).
  { repeat constructor; vm_compute; reflexivity. }
  split; [exact (proj1 (Hall _ [guid_query 32] H0))|].
  split; [exact (proj2 (Hall _ [guid_query 32] H0))|].
  assert (H1 : Forall (fun c => exists s, run 2 c Examples.capture_st = Returned s)
                 [guid_query 16]).
  { repeat constructor. exists {[1]}. vm_compute. reflexivity. }
  assert (H2 : forall s, run 2 (guid_query 5) Examples.capture_st <> Returned s).
  { intros s. vm_compute. discriminate. }
  split.
  - exact (proj1 (Hstop [guid_query 16] (guid_query 5) [guidrange_query 64 0]
                    [] eq_refl H1 H2)).
  - exact (proj2 (Hstop [guid_query 16] (guid_query 5) [guidrange_query 64 0]
                    [] eq_refl H1 H2)).
Defined.

(** * Further properties of the code *)

(** ** [makeFlidxSet(first, last)] on every pair of [int]s *)

Lemma bind_Undefined {A B : Type} (m : M A) (f : A -> M B) st u st' :
  m st = (Undefined u, st') -> bind m f st = (Undefined u, st').
Proof. intros H. unfold bind. rewrite H. reflexivity. Qed.

Lemma iota_overflow vals : forall value st,
  INT_MIN <= value <= INT_MAX ->
  INT_MAX < value + Z.of_nat (length vals) ->
  iota vals value st = (Undefined SignedOverflow, st).
Proof.
  induction vals as [|x rest IH]; intros value st Hv Hlen.
  - simpl in Hlen. lia.
  - cbn [iota length] in *. unfold int_add, int_result.
    destruct (decide (value = INT_MAX)) as [->|Hne].
    + reflexivity.
    + rewrite in_int_true by lia. rewrite bind_ret.
      apply bind_Undefined. apply IH; lia.
Qed.

Lemma makeFlidxSet_range_outcome_eq first last st :
  in_int first = true -> in_int last = true ->
  makeFlidxSet_range first last st = (makeFlidxSet_range_outcome first last, st).
Proof.
  intros Hf Hl. unfold makeFlidxSet_range_outcome.
  unfold in_int in Hf, Hl.
  apply andb_true_iff in Hf as [Hf1 Hf2]. apply andb_true_iff in Hl as [Hl1 Hl2].
  apply Z.leb_le in Hf1, Hf2, Hl1, Hl2.
  destruct (in_int (last - first)) eqn:Hd; cbn [negb orb].
  2:{ unfold makeFlidxSet_range, int_sub, int_result. by rewrite Hd. }
  destruct (in_int (last - first + 1)) eqn:Hn; cbn [negb].
  2:{ unfold makeFlidxSet_range, int_sub, int_add, int_result.
      rewrite Hd, bind_ret, Hn. reflexivity. }
  unfold in_int in Hd, Hn.
  apply andb_true_iff in Hd as [Hd1 Hd2]. apply andb_true_iff in Hn as [Hn1 Hn2].
  apply Z.leb_le in Hd1, Hd2, Hn1, Hn2.
  destruct (Z.ltb_spec (last - first + 1) 0) as [Hneg|Hpos].
  { apply makeFlidxSet_range_length_error; lia. }
  destruct (Z.leb_spec first last) as [Hle|Hgt]; cbn [andb].
  - destruct (Z.eqb_spec last INT_MAX) as [->|Hne].
    + unfold makeFlidxSet_range, int_sub, int_add, int_result.
      rewrite in_int_true by lia. rewrite bind_ret.
      rewrite in_int_true by lia. rewrite bind_ret.
      unfold to_size_t, vector_int.
      rewrite Z.mod_small by (unfold SIZE_MODULUS, INT_MAX in *; lia).
      replace (INT_MAX - first + 1 <=? vector_max_size) with true
        by (symmetry; apply Z.leb_le; unfold vector_max_size, INT_MAX in *; lia).
      rewrite bind_ret. apply bind_Undefined.
      apply iota_overflow; rewrite ?length_replicate; lia.
    + apply makeFlidxSet_range_ok; lia.
  - assert (first = last + 1) as -> by lia.
    rewrite makeFlidxSet_range_empty.
    replace (last - (last + 1) + 1) with 0 by lia. reflexivity.
Qed.

(** X1: for every pair of [int]s, [makeFlidxSet(first, last)] behaves as
    follows.  If [last - first] or [last - first + 1] is not an [int], the
    arithmetic is undefined.  Otherwise, if the length [last - first + 1] is
    negative, the vector constructor throws [std::length_error].  Otherwise,
    if [first <= last = INT_MAX], the increment that [std::iota] does after
    the last element is undefined.  In every other case the set of all
    values from [first] to [last] is returned (the empty set when
    [first = last + 1]).  So a set is returned exactly when
    [first <= last + 1], the length is at most [INT_MAX], and [last] is below
    [INT_MAX] unless the range is empty. *)
Theorem makeFlidxSet_range_cases first last st :
  in_int first = true -> in_int last = true ->
  makeFlidxSet_range first last st = (makeFlidxSet_range_outcome first last, st) /\
  forall s,
    fst (makeFlidxSet_range first last st) = Returned s <->
    first <= last + 1 /\ last - first + 1 <= INT_MAX /\
    (first <= last -> last < INT_MAX) /\
    s = list_to_set (seqZ first (last - first + 1)).
Proof.
  intros Hf Hl. split; [by apply makeFlidxSet_range_outcome_eq|].
  intros s. rewrite makeFlidxSet_range_outcome_eq by assumption.
  unfold makeFlidxSet_range_outcome. cbn [fst].
  unfold in_int in *.
  apply andb_true_iff in Hf as [Hf1 Hf2]. apply andb_true_iff in Hl as [Hl1 Hl2].
  apply Z.leb_le in Hf1, Hf2, Hl1, Hl2.
  destruct (Z.leb_spec INT_MIN (last - first));
    destruct (Z.leb_spec (last - first) INT_MAX);
    destruct (Z.leb_spec INT_MIN (last - first + 1));
    destruct (Z.leb_spec (last - first + 1) INT_MAX);
    cbn [andb negb orb];
    try (split; [discriminate
                | intros (? & ? & ? & ?); unfold INT_MIN, INT_MAX in *; lia]).
  destruct (Z.ltb_spec (last - first + 1) 0);
    [split; [discriminate | intros (? & ? & ? & ?); lia]|].
  destruct (Z.leb_spec first last); destruct (Z.eqb_spec last INT_MAX);
    cbn [andb];
    try (split; [discriminate | intros (? & ? & ? & ?); lia]).
  - split; [intros [= <-]; repeat split; lia | intros (_ & _ & _ & ->); reflexivity].
  - split; [intros [= <-]; repeat split; lia | intros (_ & _ & _ & ->); reflexivity].
  - split; [intros [= <-]; repeat split; lia | intros (_ & _ & _ & ->); reflexivity].
Qed.

Lemma makeFlidxSet_range_cases_witness :
  makeFlidxSet_range 5 INT_MAX Main.st0 = (Undefined SignedOverflow, Main.st0) /\
  makeFlidxSet_range 3 1 Main.st0 = (Thrown length_error, Main.st0) /\
  makeFlidxSet_range 2 1 Main.st0 = (Returned ∅, Main.st0).
Proof.
  split; [|split].
  - apply (makeFlidxSet_range_cases 5 INT_MAX Main.st0); reflexivity.
  - apply (makeFlidxSet_range_cases 3 1 Main.st0); reflexivity.
  - apply (makeFlidxSet_range_cases 2 1 Main.st0); reflexivity.
Defined.

(** ** A range query on a GUID that is not in the database *)

(** X2: when either GUID of a range query is absent from the GUID database,
    the call dereferences [end()] before [makeFlidxSet] is entered: the
    outcome is undefined behaviour whatever the other GUID maps to, and up
    to that point the store is untouched. *)
Theorem range_absent_undefined st first last fuel :
  guid_db st !! first = None \/ guid_db st !! last = None ->
  (q <- createQuery_range first last ;; evaluate (S fuel) q) st
  = (Undefined DerefEnd, st).
Proof.
  intros H. rewrite (built_then_run _ (guidrange_query first last)) by reflexivity.
  rewrite run_guidrange_query. destruct H as [H|H]; rewrite H.
  - reflexivity.
  - destruct (guid_db st !! first); reflexivity.
Qed.

Lemma range_absent_undefined_witness :
  (q <- createQuery_range 0 5 ;; evaluate 1 q) Main.st0
  = (Undefined DerefEnd, Main.st0).
Proof.
  apply (range_absent_undefined Main.st0 0 5 0). right. reflexivity.
Defined.

(** ** When a list query returns *)

Lemma for_queries_Returned_inv fuel st queries :
  forall combi_res s,
    fst (for_queries (evaluate fuel) queries combi_res st) = Returned s ->
    exists sets,
      Forall2 (fun q r => run fuel q st = Returned r) queries sets /\
      s = combi_res ∪ ⋃ sets.
Proof.
  induction queries as [|c rest IH]; intros acc s Hs.
  - exists []. split; [constructor|]. simpl in Hs. inversion Hs.
    symmetry. apply (right_id_L ∅ (∪)).
  - rewrite for_queries_cons in Hs.
    destruct (run fuel c st) as [r| | | |] eqn:Hc; try discriminate Hs.
    destruct (IH _ _ Hs) as (sets & Hf & ->).
    exists (r :: sets). split; [by constructor|].
    simpl. symmetry. apply (assoc_L (∪)).
Qed.

(** X3: a list query returns a set exactly when every one of its children
    returns one, and then the set is the union of theirs; so a value is in
    the result exactly when some child returns it. *)
Theorem list_query_returns_iff fuel queries st s :
  (run (S fuel) (list_query queries) st = Returned s <->
   exists sets,
     Forall2 (fun q r => run fuel q st = Returned r) queries sets /\
     s = ⋃ sets) /\
  (run (S fuel) (list_query queries) st = Returned s ->
   forall v, v ∈ s <->
     exists c r, c ∈ queries /\ run fuel c st = Returned r /\ v ∈ r).
Proof.
  assert (Hiff : run (S fuel) (list_query queries) st = Returned s <->
                 exists sets,
                   Forall2 (fun q r => run fuel q st = Returned r) queries sets /\
                   s = ⋃ sets).
  { rewrite run_list_query. split.
    - intros Hs. destruct (for_queries_Returned_inv _ _ _ _ _ Hs) as (sets & Hf & ->).
      exists sets. split; [exact Hf|]. apply (left_id_L ∅ (∪)).
    - intros (sets & Hf & ->). rewrite (for_queries_all_return _ _ _ _ Hf).
      simpl. f_equal. apply (left_id_L ∅ (∪)). }
  split; [exact Hiff|].
  intros Hs v. apply Hiff in Hs as (sets & Hf & ->).
  rewrite elem_of_union_list. split.
  - intros (r & Hr & Hv). apply list_elem_of_lookup in Hr as [i Hi].
    destruct (Forall2_lookup_r _ _ _ _ _ Hf Hi) as (c & Hc & Hrun).
    exists c, r. split; [|by split]. apply list_elem_of_lookup. by exists i.
  - intros (c & r & Hc & Hrun & Hv). apply list_elem_of_lookup in Hc as [i Hi].
    destruct (Forall2_lookup_l _ _ _ _ _ Hf Hi) as (r' & Hr' & Hrun').
    exists r. split; [|exact Hv].
    assert (r' = r) as -> by congruence.
    apply list_elem_of_lookup. by exists i.
Qed.

Lemma list_query_returns_iff_witness :
  let queries := [label_query "otto"; guidrange_query 16 32] in
  run 3 (list_query queries) Examples.otto_st = Returned (⋃ [ {[0]}; {[1; 2]} ]) /\
  (forall v, v ∈ (⋃ [ {[0]}; {[1; 2]} ] : gset Z) <->
     exists c r, c ∈ queries /\ run 2 c Examples.otto_st = Returned r /\ v ∈ r).
Proof.
  intros queries.
  destruct (list_query_returns_iff 2 queries Examples.otto_st
              (⋃ [ {[0]}; {[1; 2]} ])) as [[_ Hback] Hmem].
  assert (H : run 3 (list_query queries) Examples.otto_st
              = Returned (⋃ [ {[0]}; {[1; 2]} ])).
  { apply Hback. exists [ {[0]}; {[1; 2]} ]. split; [|reflexivity].
    repeat constructor; vm_compute; reflexivity. }
  split; [exact H | exact (Hmem H)].
Defined.

(** ** Putting list queries together *)

(** X4: a list query of one child, or of the same child twice, has the
    outcome of the child, one call deeper; and when the list queries of two
    vectors both return, the list query of the two vectors put end to end,
    and the list query of the two list queries, return the union of the two
    sets. *)
Theorem list_query_compose fuel st :
  (forall q, run (S fuel) (list_query [q]) st = run fuel q st) /\
  (forall q, run (S fuel) (list_query [q; q]) st = run fuel q st) /\
  (forall xs ys a b,
     run (S fuel) (list_query xs) st = Returned a ->
     run (S fuel) (list_query ys) st = Returned b ->
     run (S fuel) (list_query (xs ++ ys)) st = Returned (a ∪ b) /\
     run (S (S fuel)) (list_query [list_query xs; list_query ys]) st
       = Returned (a ∪ b)).
Proof.
  split; [|split].
  - intros q. rewrite run_list_query, for_queries_cons.
    destruct (run fuel q st); try reflexivity.
    simpl. f_equal. apply (left_id_L ∅ (∪)).
  - intros q. rewrite run_list_query, for_queries_cons.
    destruct (run fuel q st) as [r| | | |] eqn:Hq; try reflexivity.
    rewrite for_queries_cons, Hq. simpl. f_equal.
    rewrite (left_id_L ∅ (∪)). apply (idemp_L (∪)).
  - intros xs ys a b Ha Hb.
    assert (Happ : run (S fuel) (list_query (xs ++ ys)) st = Returned (a ∪ b)).
    { rewrite run_list_query in Ha, Hb.
      apply for_queries_Returned_inv in Ha as (sa & Hfa & ->).
      apply for_queries_Returned_inv in Hb as (sb & Hfb & ->).
      rewrite run_list_query.
      rewrite (for_queries_all_return fuel st (xs ++ ys) (sa ++ sb))
        by (by apply Forall2_app).
      simpl. f_equal. rewrite union_list_app_L, !(left_id_L ∅ (∪)).
      reflexivity. }
    split; [exact Happ|].
    rewrite run_list_query, for_queries_cons, Ha, for_queries_cons, Hb. simpl.
    f_equal. rewrite (left_id_L ∅ (∪)). reflexivity.
Qed.

Lemma list_query_compose_witness :
  run 3 (list_query ([label_query "otto"] ++ [guid_query 16; guid_query 0]))
    Examples.otto_st
  = Returned ({[0]} ∪ {[1; 0]}).
Proof.
  destruct (list_query_compose 2 Examples.otto_st) as (_ & _ & H).
  apply (H [label_query "otto"] [guid_query 16; guid_query 0] {[0]} {[1; 0]});
    vm_compute; reflexivity.
Defined.

(** ** Queries that complete *)

Lemma Query_nested_ind (P : Query -> Prop) :
  (forall guid, P (guid_query guid)) ->
  (forall first last, P (guidrange_query first last)) ->
  (forall label, P (label_query label)) ->
  (forall queries, Forall P queries -> P (list_query queries)) ->
  forall q, P q.
Proof.
  intros Hg Hr Hl Hlist. fix IH 1. intros [guid|first last|label|queries].
  - apply Hg.
  - apply Hr.
  - apply Hl.
  - apply Hlist. induction queries as [|c rest IHrest]; constructor.
    + apply IH.
    + exact IHrest.
Qed.

Lemma call_free_ret {A : Type} (a : A) : call_free (ret a).
Proof. intros st. discriminate. Qed.

Lemma call_free_bind {A B : Type} (m : M A) (f : A -> M B) :
  call_free m -> (forall a, call_free (f a)) -> call_free (bind m f).
Proof.
  intros Hm Hf st. unfold bind. specialize (Hm st).
  destruct (m st) as [[a|e|u|x|] st']; simpl in *; try discriminate.
  - apply Hf.
  - congruence.
Qed.

Lemma call_free_int_result z : call_free (int_result z).
Proof.
  unfold int_result. destruct (in_int z); intros st; discriminate.
Qed.

Lemma call_free_vector_int n : call_free (vector_int n).
Proof.
  unfold vector_int. destruct (n <=? vector_max_size); intros st; discriminate.
Qed.

Lemma call_free_iota vals : forall value, call_free (iota vals value).
Proof.
  induction vals as [|x rest IH]; intros value; simpl.
  - apply call_free_ret.
  - apply call_free_bind; [apply call_free_int_result|]. intros v'.
    apply call_free_bind; [apply IH|]. intros r. apply call_free_ret.
Qed.

Lemma call_free_makeFlidxSet_range first last :
  call_free (makeFlidxSet_range first last).
Proof.
  unfold makeFlidxSet_range, int_sub, int_add.
  repeat (apply call_free_bind;
          [first [apply call_free_int_result | apply call_free_vector_int
                 | apply call_free_iota] | intros ?]).
  apply call_free_ret.
Qed.

Lemma run_guid_query_completes fuel guid st :
  run (S fuel) (guid_query guid) st <> OutOfFuel.
Proof. rewrite run_guid_query. destruct (guid_db st !! guid); discriminate. Qed.

Lemma run_guidrange_query_completes fuel first last st :
  run (S fuel) (guidrange_query first last) st <> OutOfFuel.
Proof.
  rewrite run_guidrange_query.
  destruct (guid_db st !! first); [|discriminate].
  destruct (guid_db st !! last); [|discriminate].
  apply call_free_makeFlidxSet_range.
Qed.

Lemma for_queries_completes fuel st queries :
  Forall (fun c => run fuel c st <> OutOfFuel) queries ->
  forall combi_res,
    fst (for_queries (evaluate fuel) queries combi_res st) <> OutOfFuel.
Proof.
  induction 1 as [|c rest Hc _ IH]; intros acc.
  - discriminate.
  - rewrite for_queries_cons.
    destruct (run fuel c st); try discriminate; [apply IH | congruence].
Qed.

Lemma run_completes_le fuel fuel' q st :
  (fuel <= fuel')%nat -> run fuel q st <> OutOfFuel -> run fuel' q st <> OutOfFuel.
Proof.
  intros Hle H. by rewrite (run_fuel_le fuel fuel' q st (run fuel q st) Hle eq_refl H).
Qed.

Lemma labels_list_query_nil queries :
  labels (list_query queries) = [] -> Forall (fun c => labels c = []) queries.
Proof.
  simpl. induction queries as [|c rest IH]; intros H; constructor;
    simpl in H; apply app_nil in H as [H1 H2]; auto.
Qed.

Lemma depth_child c queries :
  c ∈ queries -> (depth c <= foldr (fun c d => depth c `max` d) 0 queries)%nat.
Proof.
  induction 1 as [c rest|c c' rest _ IH]; simpl; lia.
Qed.

(** X5: a query whose closure holds no group reference always completes,
    as soon as the stack has room for [depth q] calls (one for a point or
    range query, one more than its deepest child for a list query), whatever
    the databases hold. *)
Theorem label_free_completes st q :
  labels q = [] ->
  forall fuel, (depth q <= fuel)%nat -> run fuel q st <> OutOfFuel.
Proof.
  induction q as [guid|first last|label|queries IH] using Query_nested_ind;
    intros Hlab fuel Hfuel.
  - destruct fuel as [|n]; [simpl in Hfuel; lia|]. apply run_guid_query_completes.
  - destruct fuel as [|n]; [simpl in Hfuel; lia|].
    apply run_guidrange_query_completes.
  - discriminate Hlab.
  - destruct fuel as [|n]; [simpl in Hfuel; lia|].
    rewrite run_list_query. apply for_queries_completes.
    apply labels_list_query_nil in Hlab.
    apply Forall_forall. intros c Hc.
    rewrite Forall_forall in IH, Hlab.
    apply IH; [exact Hc | by apply Hlab |].
    pose proof (depth_child c queries Hc). cbn [depth] in Hfuel. lia.
Qed.

Lemma label_free_completes_witness :
  run 3 (list_query [guid_query 5; list_query [guidrange_query 64 0]]) Main.st0
  <> OutOfFuel.
Proof.
  apply (label_free_completes Main.st0
           (list_query [guid_query 5; list_query [guidrange_query 64 0]]));
    [reflexivity | simpl; lia].
Defined.

Lemma common_completing_fuel st queries :
  Forall (fun c => exists fuel, run fuel c st <> OutOfFuel) queries ->
  exists fuel, Forall (fun c => run fuel c st <> OutOfFuel) queries.
Proof.
  induction 1 as [|c rest [n Hn] _ [m Hm]].
  - exists 0%nat. constructor.
  - exists (n `max` m)%nat. constructor.
    + apply (run_completes_le n); [lia | exact Hn].
    + eapply Forall_impl; [exact Hm|]. intros c' Hc'. simpl in Hc'.
      apply (run_completes_le m); [lia | exact Hc'].
Qed.

Lemma query_completes st q :
  Forall (fun l => exists fuel, run fuel (label_query l) st <> OutOfFuel)
         (labels q) ->
  exists fuel, run fuel q st <> OutOfFuel.
Proof.
  induction q as [guid|first last|label|queries IH] using Query_nested_ind;
    intros Hlab.
  - exists 1%nat. apply run_guid_query_completes.
  - exists 1%nat. apply run_guidrange_query_completes.
  - simpl in Hlab. inversion Hlab; assumption.
  - assert (Hall : Forall (fun c => exists fuel, run fuel c st <> OutOfFuel) queries).
    { simpl in Hlab. induction IH as [|c rest Hc _ IHrest]; constructor;
        simpl in Hlab; apply Forall_app in Hlab as [H1 H2]; auto. }
    destruct (common_completing_fuel st queries Hall) as [n Hn].
    exists (S n). rewrite run_list_query. by apply for_queries_completes.
Qed.

Lemma label_completes st rank :
  stratified st rank ->
  forall n label, (rank label < n)%nat ->
    exists fuel, run fuel (label_query label) st <> OutOfFuel.
Proof.
  intros Hs. induction n as [|n IH]; intros label Hr; [lia|].
  destruct (group_db st !! label) as [query|] eqn:Hq.
  - destruct (query_completes st query) as [fuel Hfuel].
    + eapply Forall_impl; [exact (Hs label query Hq)|].
      intros l Hl. simpl in Hl. apply IH. lia.
    + exists (S fuel). by rewrite run_label_query, Hq.
  - exists 1%nat. by rewrite run_label_query, Hq.
Qed.

(** X6: when the group database is stratified, that is when the labels can
    be ranked so that every registered query holds only labels of a lower
    rank, every call of every query completes: it returns, throws or runs
    into undefined behaviour, and never recurses without bound. *)
Theorem stratified_completes st rank q :
  stratified st rank -> exists o, evaluates_to st q o.
Proof.
  intros Hs. destruct (query_completes st q) as [fuel Hfuel].
  - apply Forall_forall. intros l _.
    apply (label_completes st rank Hs (S (rank l))). lia.
  - exists (run fuel q st), fuel. by split.
Qed.

Lemma stratified_completes_witness :
  exists o, evaluates_to Examples.layered_st
              (list_query [label_query "both"; label_query "otto"]) o.
Proof.
  apply (stratified_completes Examples.layered_st Examples.layered_rank).
  intros label query H. simpl in H.
  apply lookup_insert_Some in H as [[<- <-]|[_ H]]; [constructor|].
  apply lookup_insert_Some in H as [[<- <-]|[_ H]].
  - repeat constructor.
  - by rewrite lookup_empty in H.
Defined.

(** ** Registering a group *)

Lemma run_register_frame st g query fuel :
  unreferenced st g ->
  forall q, g ∉ labels q ->
    run fuel q (mkStore (guid_db st) (<[g := query]> (group_db st)) (vectors st))
    = run fuel q st.
Proof.
  intros Hun. induction fuel as [|n IH]; intros q Hq; [reflexivity|].
  destruct q as [guid|first last|label|queries].
  - rewrite !run_guid_query. reflexivity.
  - rewrite !run_guidrange_query. cbn [guid_db].
    destruct (guid_db st !! first) as [v1|]; [|reflexivity].
    destruct (guid_db st !! last) as [v2|]; [|reflexivity].
    destruct (store_free_makeFlidxSet_range v1 v2) as [o Ho]. by rewrite !Ho.
  - rewrite !run_label_query. cbn [group_db].
    rewrite lookup_insert_ne by (intros ->; apply Hq; simpl; left).
    destruct (group_db st !! label) as [q0|] eqn:Hl; [|reflexivity].
    apply IH. exact (Hun label q0 Hl).
  - rewrite !run_list_query. generalize (∅ : gset Z).
    induction queries as [|c rest IHq]; intros acc; [reflexivity|].
    simpl in Hq. apply not_elem_of_app in Hq as [Hc Hrest].
    rewrite !for_queries_cons, (IH c Hc).
    destruct (run n c st); try reflexivity. apply IHq. exact Hrest.
Qed.

(** X7: registering a query under the label [g] changes nothing for a
    query that does not hold [g], as long as no registered query holds [g]
    either: called after [group_db[g] = query] it has the outcome it had
    before. *)
Theorem register_frame st g query q fuel :
  unreferenced st g -> g ∉ labels q ->
  fst ((_ <- register g query ;; evaluate fuel q) st) = run fuel q st.
Proof.
  intros Hun Hq. unfold bind, register.
  apply (run_register_frame st g query fuel Hun q Hq).
Qed.

Lemma register_frame_witness :
  fst ((_ <- register "new" (label_query "new") ;;
        evaluate 5 (list_query [label_query "both"; guid_query 64]))
         Examples.layered_st)
  = run 5 (list_query [label_query "both"; guid_query 64]) Examples.layered_st.
Proof.
  apply (register_frame Examples.layered_st "new" (label_query "new")
           (list_query [label_query "both"; guid_query 64]) 5).
  - intros label query H. simpl in H.
    apply lookup_insert_Some in H as [[<- <-]|[_ H]]; [apply not_elem_of_nil|].
    apply lookup_insert_Some in H as [[<- <-]|[_ H]].
    + simpl. intros Hin. apply list_elem_of_singleton in Hin. discriminate Hin.
    + by rewrite lookup_empty in H.
  - simpl. intros Hin. apply list_elem_of_singleton in Hin. discriminate Hin.
Defined.

(** X8: [group_db[g] = query] replaces what was registered under [g]: after
    two registrations under the same label the store is the one that the
    second alone gives, and a reference to [g] has the outcome of the query
    registered last, one call deeper. *)
Theorem register_replaces st g q1 q2 fuel :
  (_ <- register g q1 ;; register g q2) st = register g q2 st /\
  fst ((_ <- register g q1 ;; _ <- register g q2 ;;
        evaluate (S fuel) (label_query g)) st)
  = fst ((_ <- register g q2 ;; evaluate fuel q2) st).
Proof.
  assert (H : (_ <- register g q1 ;; register g q2) st = register g q2 st).
  { unfold bind, register. cbn [guid_db group_db vectors].
    by rewrite insert_insert_eq. }
  split; [exact H|].
  unfold bind, register in *. cbn [guid_db group_db vectors] in *.
  rewrite insert_insert_eq.
  change (fst (evaluate (S fuel) (label_query g) ?s)) with
    (run (S fuel) (label_query g) s).
  rewrite run_label_query. cbn [group_db]. by rewrite lookup_insert_eq.
Qed.

(** X10: a reference can be registered before the group it names.  When
    [h] is registered as a reference to [g] and only then [g] is registered
    as [q], a reference to [h] has the outcome of [q()], two calls deeper;
    called between the two registrations, with [g] still unregistered, it
    dereferences [end()]. *)
Theorem forward_reference st g h q fuel :
  g <> h -> group_db st !! g = None ->
  fst ((_ <- register h (label_query g) ;;
        evaluate (S (S fuel)) (label_query h)) st) = Undefined DerefEnd /\
  fst ((_ <- register h (label_query g) ;; _ <- register g q ;;
        evaluate (S (S fuel)) (label_query h)) st)
  = fst ((_ <- register h (label_query g) ;; _ <- register g q ;;
          evaluate fuel q) st).
Proof.
  intros Hne Hg. unfold bind, register. cbn [guid_db group_db vectors fst].
  split.
  - change (fst (evaluate ?n ?c ?s)) with (run n c s).
    rewrite run_label_query. cbn [group_db]. rewrite lookup_insert_eq.
    rewrite run_label_query. cbn [group_db].
    rewrite lookup_insert_ne by congruence. by rewrite Hg.
  - change (fst (evaluate ?n ?c ?s)) with (run n c s).
    rewrite run_label_query. cbn [group_db].
    rewrite lookup_insert_ne by exact Hne. rewrite lookup_insert_eq.
    rewrite run_label_query. cbn [group_db]. by rewrite lookup_insert_eq.
Qed.

Lemma forward_reference_witness :
  fst ((_ <- register "alias" (label_query "otto") ;;
        evaluate 3 (label_query "alias")) Main.st0) = Undefined DerefEnd /\
  fst ((_ <- register "alias" (label_query "otto") ;;
        _ <- register "otto" (guid_query 0) ;;
        evaluate 3 (label_query "alias")) Main.st0)
  = fst ((_ <- register "alias" (label_query "otto") ;;
          _ <- register "otto" (guid_query 0) ;;
          evaluate 1 (guid_query 0)) Main.st0).
Proof.
  apply (forward_reference Main.st0 "otto" "alias" (guid_query 0) 1).
  - discriminate.
  - reflexivity.
Defined.

(** ** The values a query can return *)

(** X9: a query returns only values that lie between the least and the
    greatest value of the GUID database: if every stored value is an [int]
    in [lo .. hi], so is every member of every set that a call returns. *)
Theorem result_within_database st lo hi :
  INT_MIN <= lo -> hi <= INT_MAX ->
  (forall guid v, guid_db st !! guid = Some v -> lo <= v <= hi) ->
  forall fuel q s, run fuel q st = Returned s ->
  forall v, v ∈ s -> lo <= v <= hi.
Proof.
  intros Hlo Hhi Hdb. induction fuel as [|n IH]; intros q s Hs v Hv;
    [discriminate Hs|].
  destruct q as [guid|first last|label|queries].
  - rewrite run_guid_query in Hs.
    destruct (guid_db st !! guid) as [single|] eqn:Hg; [|discriminate Hs].
    inversion Hs; subst. apply elem_of_union in Hv as [Hv|Hv].
    + apply elem_of_singleton in Hv as ->. by apply (Hdb guid).
    + by apply not_elem_of_empty in Hv.
  - rewrite run_guidrange_query in Hs.
    destruct (guid_db st !! first) as [v1|] eqn:H1; [|discriminate Hs].
    destruct (guid_db st !! last) as [v2|] eqn:H2; [|discriminate Hs].
    pose proof (Hdb _ _ H1) as B1. pose proof (Hdb _ _ H2) as B2.
    rewrite makeFlidxSet_range_outcome_eq in Hs by (apply in_int_true; lia).
    unfold makeFlidxSet_range_outcome in Hs. simpl in Hs.
    destruct (negb (in_int (v2 - v1)) || negb (in_int (v2 - v1 + 1)));
      [discriminate Hs|].
    destruct (v2 - v1 + 1 <? 0); [discriminate Hs|].
    destruct ((v1 <=? v2) && (v2 =? INT_MAX)); [discriminate Hs|].
    inversion Hs; subst.
    apply elem_of_list_to_set, elem_of_seqZ in Hv. lia.
  - rewrite run_label_query in Hs.
    destruct (group_db st !! label) as [q0|]; [|discriminate Hs].
    by apply (IH q0 s).
  - rewrite run_list_query in Hs.
    apply for_queries_Returned_inv in Hs as (sets & Hf & ->).
    apply elem_of_union in Hv as [Hv|Hv]; [by apply not_elem_of_empty in Hv|].
    apply elem_of_union_list in Hv as (r & Hr & Hv).
    apply list_elem_of_lookup in Hr as [i Hi].
    destruct (Forall2_lookup_r _ _ _ _ _ Hf Hi) as (c & _ & Hc).
    by apply (IH c r).
Qed.

Lemma result_within_database_witness :
  run 3 (list_query [label_query "otto"; guidrange_query 16 32]) Examples.otto_st
    = Returned ({[0]} ∪ {[1; 2]}) /\
  0 <= 2 <= 3.
Proof.
  assert (H : run 3 (list_query [label_query "otto"; guidrange_query 16 32])
                Examples.otto_st = Returned ({[0]} ∪ {[1; 2]})).
  { vm_compute. reflexivity. }
  split; [exact H|].
  apply (result_within_database Examples.otto_st 0 3)
    with (fuel := 3%nat)
         (q := list_query [label_query "otto"; guidrange_query 16 32])
         (s := {[0]} ∪ {[1; 2]});
    [unfold INT_MIN; lia | unfold INT_MAX; lia | | exact H |].
  - intros guid v Hg. simpl in Hg. unfold Main.guid_db0 in Hg.
    repeat (apply lookup_insert_Some in Hg as [[_ <-]|[_ Hg]]; [lia|]).
    by rewrite lookup_empty in Hg.
  - apply elem_of_union. right. apply elem_of_union. right.
    by apply elem_of_singleton.
Defined.

(** ** [main] *)

(** [main] runs to its end without undefined behaviour, prints 3 (the size
    of the range from GUID 0 to GUID 32) and 4 (the size of the list query,
    in which the group "otto" is named twice), and leaves the GUID database
    as it was and the group database with the one group "otto". *)
Theorem main_outcome :
  Main.program Main.st0 = (Returned (3%nat, 4%nat), Examples.otto_st).
Proof. vm_compute. reflexivity. Qed.

(** * Cycles of references *)

(** ** A cyclic group never returns *)

(** When a call returns, the references that the query holds have returned
    too, no deeper in the stack. *)
Lemma returned_labels st fuel :
  forall q s, run fuel q st = Returned s ->
  forall l, l ∈ labels q ->
    exists m s', (m <= fuel)%nat /\ run m (label_query l) st = Returned s'.
Proof.
  induction fuel as [|n IH]; intros q s Hs l Hl; [discriminate Hs|].
  destruct q as [guid|first last|label|queries].
  - by apply not_elem_of_nil in Hl.
  - by apply not_elem_of_nil in Hl.
  - simpl in Hl. apply list_elem_of_singleton in Hl as ->.
    exists (S n), s. split; [lia | exact Hs].
  - rewrite run_list_query in Hs.
    apply for_queries_Returned_inv in Hs as (sets & Hf & _).
    simpl in Hl. clear s.
    induction Hf as [|c r rest sets Hc _ IHf]; simpl in Hl.
    + by apply not_elem_of_nil in Hl.
    + apply elem_of_app in Hl as [Hl|Hl]; [|by apply IHf].
      destruct (IH c r Hc l Hl) as (m & s' & Hm & Hrun).
      exists m, s'. split; [lia | exact Hrun].
Qed.

Lemma refers_returns_below st a b fuel s :
  tc (refers st) a b ->
  run fuel (label_query a) st = Returned s ->
  exists m s', (m < fuel)%nat /\ run m (label_query b) st = Returned s'.
Proof.
  intros Hab. revert fuel s.
  induction Hab as [a b (q & Hq & Hb)|a y b (q & Hq & Hy) _ IH]; intros fuel s Hs.
  - destruct fuel as [|n]; [discriminate Hs|].
    rewrite run_label_query, Hq in Hs.
    destruct (returned_labels st n q s Hs b Hb) as (m & s' & Hm & Hrun).
    exists m, s'. split; [lia | exact Hrun].
  - destruct fuel as [|n]; [discriminate Hs|].
    rewrite run_label_query, Hq in Hs.
    destruct (returned_labels st n q s Hs y Hy) as (m & s' & Hm & Hrun).
    destruct (IH m s' Hrun) as (m' & s'' & Hm' & Hrun').
    exists m', s''. split; [lia | exact Hrun'].
Qed.

Lemma cyclic_never_returns st a :
  cyclic st a -> forall fuel s, run fuel (label_query a) st <> Returned s.
Proof.
  intros Ha fuel. induction fuel as [fuel IH] using lt_wf_ind. intros s Hs.
  destruct (refers_returns_below st a a fuel s Ha Hs) as (m & s' & Hm & Hrun).
  exact (IH m Hm s' Hrun).
Qed.

Lemma not_returned_cases (o : Outcome (gset Z)) :
  (forall s, o <> Returned s) -> (forall e, o <> Failed e) ->
  o = OutOfFuel \/ (exists u, o = Undefined u) \/ (exists x, o = Thrown x).
Proof.
  intros Hr Hf. destruct o as [s|e|u|x|].
  - by destruct (Hr s).
  - by destruct (Hf e).
  - right. left. by exists u.
  - right. right. by exists x.
  - by left.
Qed.

(** ** A cycle that the calls come back to recurses without bound *)

Lemma evaluates_to_or_out_of_fuel st q o fuel :
  evaluates_to st q o -> run fuel q st = o \/ run fuel q st = OutOfFuel.
Proof.
  intros Ho. destruct (run fuel q st) as [s|e|u|x|] eqn:Hrun;
    [left | left | left | left | by right];
    apply (evaluates_to_unique st q); try exact Ho;
    (exists fuel; split; [exact Hrun | discriminate]).
Qed.

Lemma reaches_out_of_fuel st q l :
  reaches st q l ->
  forall fuel,
    (forall m, (m <= fuel)%nat -> run m (label_query l) st = OutOfFuel) ->
    run fuel q st = OutOfFuel.
Proof.
  induction 1 as [l|pre child post l Hpre _ IH]; intros fuel Hl.
  - apply Hl. lia.
  - destruct fuel as [|n]; [reflexivity|].
    rewrite run_list_query. generalize (∅ : gset Z).
    induction Hpre as [|c pre [s Hc] _ IHpre]; intros acc; simpl app.
    + rewrite for_queries_cons, IH; [reflexivity|].
      intros m Hm. apply Hl. lia.
    + rewrite for_queries_cons.
      destruct (evaluates_to_or_out_of_fuel st c _ n Hc) as [-> | ->];
        [apply IHpre | reflexivity].
Qed.

Lemma reentered_step st a :
  reentered st a -> exists b, calls st a b /\ reentered st b.
Proof.
  unfold reentered. intros H. inversion H as [x y Hab | x y z Hab Hba]; subst.
  - exists a. split; [assumption | apply tc_once; assumption].
  - exists y. split; [assumption | eapply tc_r; eassumption].
Qed.

Lemma reentered_out_of_fuel st fuel :
  forall m, (m <= fuel)%nat ->
  forall a, reentered st a -> run m (label_query a) st = OutOfFuel.
Proof.
  induction fuel as [|n IH]; intros m Hm a Ha.
  - assert (m = 0%nat) as -> by lia. reflexivity.
  - destruct (decide (m = S n)) as [->|Hne]; [|apply IH; [lia | exact Ha]].
    destruct (reentered_step st a Ha) as (b & (q & Hq & Hreach) & Hb).
    rewrite run_label_query, Hq.
    apply (reaches_out_of_fuel st q b Hreach).
    intros m Hm'. apply IH; [exact Hm' | exact Hb].
Qed.

(** A self-reference behind a child that throws is a cycle, and the call
    completes: it never gets to the reference. *)
Example cycle_can_stop_before_the_reference :
  cyclic Examples.stopped_loop_st "a" /\
  run 3 (label_query "a") Examples.stopped_loop_st = Thrown length_error.
Proof.
  split; [|vm_compute; reflexivity].
  apply tc_once. eexists. split; [reflexivity|].
  simpl. apply list_elem_of_singleton. reflexivity.
Qed.

(** C3 as the specification states it does not hold: the group "a" is
    registered as a reference to "b" and "b" as a reference to "a"; the call
    of the query registered under "a" does not complete with
    [CycleDetected], and with a stack of depth 100 it is still running. *)
Lemma two_group_cycle_is_not_detected :
  cyclic Examples.loop_st "a" /\
  group_db Examples.loop_st !! "a" = Some (label_query "b") /\
  run 100 (label_query "b") Examples.loop_st = OutOfFuel /\
  ~ evaluates_to Examples.loop_st (label_query "b") (Failed CycleDetected).
Proof.
  split.
  { apply (tc_l _ "a" "b" "a"); [|apply tc_once]; eexists;
      (split; [reflexivity|]); simpl; apply list_elem_of_singleton; reflexivity. }
  split; [reflexivity|]. split; [vm_compute; reflexivity|].
  intros (fuel & H & _). exact (run_not_Failed _ _ _ _ H).
Qed.

(** C3, amended: for every state of the group database in which a
    registered query refers back to its own label, directly or through
    other groups, by references that are registered as they are or as
    children, at any depth, of list queries, the call of that query, and of
    any reference to that label, never returns a set and never reports
    [CycleDetected] or any other error: at every depth of the stack it is
    still running, or it has stopped at the undefined behaviour or the
    exception of a child called on the way.  When moreover the calls come
    back to the reference, that is when on the cycle every child that a
    list query calls before the reference returns (as is the case on a chain
    of bare group references), the call recurses without bound and never
    completes. *)
Theorem cycle_never_returns st a :
  cyclic st a ->
  (forall q, q = label_query a \/ group_db st !! a = Some q ->
     forall fuel,
       run fuel q st = OutOfFuel \/
       (exists u, run fuel q st = Undefined u) \/
       (exists x, run fuel q st = Thrown x)) /\
  (reentered st a ->
     forall q, q = label_query a \/ group_db st !! a = Some q ->
       diverges st q).
Proof.
  intros Ha. split.
  - intros q Hq fuel. apply not_returned_cases; [|intros e; apply run_not_Failed].
    intros s Hs. destruct Hq as [->|Hq].
    + exact (cyclic_never_returns st a Ha fuel s Hs).
    + apply (cyclic_never_returns st a Ha (S fuel) s).
      by rewrite run_label_query, Hq.
  - intros Hre q Hq fuel.
    assert (Hlab : forall n, run n (label_query a) st = OutOfFuel).
    { intros n. by apply (reentered_out_of_fuel st n n). }
    destruct Hq as [->|Hq]; [apply Hlab|].
    specialize (Hlab (S fuel)). by rewrite run_label_query, Hq in Hlab.
Qed.

Lemma cycle_never_returns_witness :
  cyclic Examples.list_loop_st "a" /\
  reentered Examples.list_loop_st "a" /\
  (forall fuel,
     run fuel (list_query [guid_query 0; label_query "b"]) Examples.list_loop_st
       = OutOfFuel \/
     (exists u,
        run fuel (list_query [guid_query 0; label_query "b"]) Examples.list_loop_st
          = Undefined u) \/
     (exists x,
        run fuel (list_query [guid_query 0; label_query "b"]) Examples.list_loop_st
          = Thrown x)) /\
  diverges Examples.list_loop_st (label_query "a") /\
  diverges Examples.list_loop_st (list_query [guid_query 0; label_query "b"]).
Proof.
  assert (Hc : cyclic Examples.list_loop_st "a").
  { apply (tc_l _ "a" "b" "a"); [|apply tc_once]; eexists;
      (split; [reflexivity|]); simpl.
    - apply list_elem_of_here.
    - apply list_elem_of_here. }
  assert (Hr : reentered Examples.list_loop_st "a").
  { apply (tc_l _ "a" "b" "a"); [|apply tc_once]; eexists;
      (split; [reflexivity|]).
    - apply (reaches_list _ [guid_query 0] (label_query "b") [] "b");
        [|apply reaches_label].
      repeat constructor. exists {[0]}, 1%nat.
      split; [vm_compute; reflexivity | discriminate].
    - apply reaches_label. }
  destruct (cycle_never_returns Examples.list_loop_st "a" Hc) as [Hnever Hdiv].
  split; [exact Hc|]. split; [exact Hr|]. split; [|split].
  - apply Hnever. right. reflexivity.
  - apply (Hdiv Hr). left. reflexivity.
  - apply (Hdiv Hr). right. reflexivity.
Defined.
